(** * hail/format.hpp: the variadic formatter of libhail

    A shallow embedding of [src/libhail/src/hail/format.hpp].

    - [FormatStream] is the abstract class of the header: a table of the three
      virtual members [write], [putc], [puts].  A call on a stream either
      returns or leaves by an exception; both carry the state the stream is
      left in ([outcome]).
    - [format] and [print] are the two templates of the header, translated
      from their bodies.  The overload set [format1] is [extern] in the
      header, so [format] and [print] take it as a parameter.
    - The bodies of the [format1] overloads are defined in [format.cpp],
      which is not part of the sources at hand; they are modelled from the
      specification and marked as such. *)

From Stdlib Require Import ZArith List Ascii Bool Lia.
From Stdlib Require String.
Import String.StringSyntax.
From Stdlib Require Import SpecFloat.
Import ListNotations.
Open Scope Z_scope.
Delimit Scope string_scope with string.

Module Hail.

(** Text is a sequence of [char]s. *)
Definition text : Type := list ascii.

(** ** The abstract stream *)

Section Stream.
Variables St E : Type.

(** How a [void] call on a stream of state [St] ends: it returns, or an
    exception [e : E] leaves it.  The state reached is kept either way,
    since what was written before a throw stays written. *)
Inductive outcome : Type :=
| Returned (st : St)
| Thrown (e : E) (st : St).

(** [class FormatStream]: [write(void *p, size_t n)] receives the [n] bytes
    at [p], [putc(int c)] an [int], [puts(const char *s)] the characters of
    the C string [s]. *)
Record FormatStream : Type := {
  write : list ascii -> St -> outcome;
  putc : Z -> St -> outcome;
  puts : text -> St -> outcome
}.

(** Statement sequencing [a; b] and the comma operator [a, b]: [b] runs
    only when [a] returned. *)
Definition and_then (a b : St -> outcome) : St -> outcome :=
  fun st =>
    match a st with
    | Returned st' => b st'
    | Thrown e st' => Thrown e st'
    end.

(** The empty statement, [void()]. *)
Definition skip : St -> outcome := fun st => Returned st.

(** The state a call leaves behind. *)
Definition final (o : outcome) : St :=
  match o with
  | Returned st => st
  | Thrown _ st => st
  end.

Definition returns (o : outcome) : bool :=
  match o with
  | Returned _ => true
  | Thrown _ _ => false
  end.
End Stream.

Arguments Returned {St E} st.
Arguments Thrown {St E} e st.
Arguments write {St E} f p st.
Arguments putc {St E} f c st.
Arguments puts {St E} f s st.
Arguments and_then {St E} a b st.
Arguments skip {St E} st.
Arguments final {St E} o.
Arguments returns {St E} o.

Declare Scope stream_scope.
Delimit Scope stream_scope with stream.
Notation "a ;; b" := (and_then a b)
  (at level 61, right associativity) : stream_scope.
Local Open Scope stream_scope.

(** ** The templates [format] and [print] *)

Section Composition.
Context {St E Arg : Type}.

(** [extern void format1(FormatStream &s, T v)], for whatever overload the
    argument selects. *)
Variable format1 : FormatStream St E -> Arg -> St -> outcome St E.

(** [(format1(s, std::forward<Args>(args)),...)] is a unary right fold over
    the comma operator: [void()] for the empty pack, the expression itself
    for one argument, and [format1(s, a1), (format1(s, a2), ...)]
    otherwise. *)
Fixpoint format (s : FormatStream St E) (args : list Arg)
  : St -> outcome St E :=
  match args with
  | [] => skip
  | a :: rest =>
      match rest with
      | [] => format1 s a
      | _ :: _ => format1 s a ;; format s rest
      end
  end.

(** [print]: [format(outs, args...); outs.putc('\n');].  The global
    [outs] is passed in. *)
Definition print (outs : FormatStream St E) (args : list Arg)
  : St -> outcome St E :=
  format outs args ;; putc outs 10.
End Composition.

(** ** Argument types and overload resolution *)

(** The types an argument of [format] can have that matter here: the
    parameter types of the declared overloads, and some further built-in
    types that reach an overload only through a conversion. *)
Inductive ctype : Type :=
| TBool | TChar
| TSChar | TUChar | TShort | TUShort | TInt | TUInt | TLong | TULong
| TLongLong | TULongLong
| TFloat | TDouble
| TCString        (* pointer to const char: a C string *)
| TCharPtr        (* pointer to char *)
| TVoidPtr        (* pointer to const void *)
| TMutVoidPtr     (* pointer to void *)
| TObjectPtr      (* pointer to an object type other than char, as int *)
| TString         (* std::string *)
| TFormatAddress
| TIndent.

Definition ctype_eq_dec (a b : ctype) : {a = b} + {a <> b}.
Proof. decide equality. Defined.

Definition ctype_eqb (a b : ctype) : bool :=
  if ctype_eq_dec a b then true else false.

(** The second parameter of each declared [format1], in declaration order
    (lines 21-32, 40 and 48 of the header). *)
Definition overloads : list ctype :=
  [TSChar; TUChar; TShort; TUShort; TInt; TUInt; TLong; TULong;
   TFloat; TDouble; TCString; TString; TFormatAddress; TIndent].

Definition is_integral (t : ctype) : bool :=
  match t with
  | TBool | TChar | TSChar | TUChar | TShort | TUShort | TInt | TUInt
  | TLong | TULong | TLongLong | TULongLong => true
  | _ => false
  end.

Definition is_arithmetic (t : ctype) : bool :=
  is_integral t || match t with TFloat | TDouble => true | _ => false end.

(** Ranks of implicit conversion sequences, best first. *)
Inductive rank : Type := Exact | Promotion | Conversion | UserDefined.

Definition rank_index (r : rank) : nat :=
  match r with
  | Exact => 0 | Promotion => 1 | Conversion => 2 | UserDefined => 3
  end%nat.

(** Integral promotion takes the types narrower than [int] to [int];
    floating-point promotion takes [float] to [double]. *)
Definition promotes (from to : ctype) : bool :=
  match from, to with
  | (TBool | TChar | TSChar | TUChar | TShort | TUShort), TInt => true
  | TFloat, TDouble => true
  | _, _ => false
  end.

(** Standard conversion sequences between the types above: identity,
    promotion, a conversion between arithmetic types, the qualification
    conversion that adds [const] (of the rank of an exact match), the
    pointer conversion of an object pointer to a pointer to void, or the
    boolean conversion of a pointer. *)
Definition standard_conversion (from to : ctype) : option rank :=
  if ctype_eqb from to then Some Exact
  else if promotes from to then Some Promotion
  else if is_arithmetic from && is_arithmetic to then Some Conversion
  else match from, to with
       | TCharPtr, TCString => Some Exact
       | TMutVoidPtr, TVoidPtr => Some Exact
       | (TCString | TCharPtr | TObjectPtr), TVoidPtr => Some Conversion
       | (TCharPtr | TObjectPtr), TMutVoidPtr => Some Conversion
       | (TCString | TCharPtr | TVoidPtr | TMutVoidPtr | TObjectPtr), TBool =>
           Some Conversion
       | _, _ => None
       end.

(** Converting constructors: [FormatAddress(const void *p)] and
    [Indent(int indent)] of the header, and the one of [std::string] from a
    C string. *)
Definition converting_constructor (cls : ctype) : option ctype :=
  match cls with
  | TFormatAddress => Some TVoidPtr
  | TIndent => Some TInt
  | TString => Some TCString
  | _ => None
  end.

(** The implicit conversion sequence from an argument type to a parameter
    type: a standard one, or a standard one followed by a converting
    constructor. *)
Definition implicit_conversion (from to : ctype) : option rank :=
  match standard_conversion from to with
  | Some r => Some r
  | None =>
      match converting_constructor to with
      | Some p =>
          match standard_conversion from p with
          | Some _ => Some UserDefined
          | None => None
          end
      | None => None
      end
  end.

Definition viable (arg p : ctype) : bool :=
  match implicit_conversion arg p with Some _ => true | None => false end.

(** [p] is a better candidate than [q] for an argument of type [arg]. *)
Definition better (arg p q : ctype) : bool :=
  match implicit_conversion arg p, implicit_conversion arg q with
  | Some rp, Some rq => (rank_index rp <? rank_index rq)%nat
  | Some _, None => true
  | None, _ => false
  end.

(** Overload resolution of [format1(s, v)] for [v] of type [arg]: the one
    viable overload that is better than every other one; [None] when the
    call is ill-formed (no viable overload, or an ambiguity). *)
Definition resolve (arg : ctype) : option ctype :=
  match
    filter (fun p =>
              viable arg p &&
              forallb (fun q => ctype_eqb p q || better arg p q) overloads)
           overloads
  with
  | [p] => Some p
  | _ => None
  end.

(** ** Integer types (LP64) *)

Definition width (t : ctype) : Z :=
  match t with
  | TSChar | TUChar => 8
  | TShort | TUShort => 16
  | TInt | TUInt => 32
  | TLong | TULong => 64
  | _ => 0
  end.

Definition is_signed (t : ctype) : bool :=
  match t with
  | TSChar | TShort | TInt | TLong => true
  | _ => false
  end.

(** The integer types that have a [format1] overload of their own. *)
Definition integer_overload (t : ctype) : bool :=
  match t with
  | TSChar | TUChar | TShort | TUShort | TInt | TUInt | TLong | TULong => true
  | _ => false
  end.

Definition int_min (t : ctype) : Z :=
  if is_signed t then - 2 ^ (width t - 1) else 0.

Definition int_max (t : ctype) : Z :=
  if is_signed t then 2 ^ (width t - 1) - 1 else 2 ^ width t - 1.

Definition in_range (t : ctype) (v : Z) : bool :=
  integer_overload t && (int_min t <=? v) && (v <=? int_max t).

(** Conversion of an integer to the integer type [t]: reduction modulo
    [2 ^ width t] into the range of [t]. *)
Definition wrap (t : ctype) (v : Z) : Z :=
  let m := 2 ^ width t in
  let u := v mod m in
  if is_signed t && (int_max t <? u) then u - m else u.

(** ** Values *)

(** An argument once it has reached its overload. *)
Inductive Value : Type :=
| VInteger (t : ctype) (v : Z)      (* one of the eight integer overloads *)
| VFloat (v : spec_float)
| VDouble (v : spec_float)
| VCString (v : text)               (* const char *v: the characters before the NUL *)
| VString (t : text)                (* const std::string &t *)
| VFormatAddress (p : Z)            (* class FormatAddress { const void *p; } *)
| VIndent (indent : Z).             (* class Indent { int indent; } *)

(** An argument of integer type [t] and value [v] passed to [format1]: the
    overload chosen by [resolve], and the value converted to its parameter
    type. *)
Definition integer_argument (t : ctype) (v : Z) : option Value :=
  match resolve t with
  | Some p => if integer_overload p then Some (VInteger p (wrap p v)) else None
  | None => None
  end.

(** ** Text of numbers and addresses *)

(** Modelled from the spec: the decimal text the integer overloads of
    [format1] write (their bodies are in format.cpp, not at hand).  Section
    4.2: "decimal text representation; sign included for signed types; no
    thousands separators; no leading zeros beyond the minimal
    representation of zero itself".  [decimal_digits] writes the digits of
    [n >= 0], most significant first; [fuel] bounds the number of digits. *)
Definition digit_char (d : Z) : ascii := ascii_of_nat (Z.to_nat (48 + d)).

Fixpoint decimal_digits (fuel : nat) (n : Z) : text :=
  match fuel with
  | O => []
  | S fuel' =>
      (if n / 10 =? 0 then [] else decimal_digits fuel' (n / 10))
        ++ [digit_char (n mod 10)]
  end.

Definition unsigned_decimal (n : Z) : text :=
  decimal_digits (S (Z.to_nat (Z.log2 n))) n.

Definition decimal (v : Z) : text :=
  if v <? 0 then "-"%char :: unsigned_decimal (- v) else unsigned_decimal v.

(** Modelled from the spec: the text of a [FormatAddress] (body of the
    overload in format.cpp, not at hand).  Section 4.2 and 8: "a fixed-width
    hexadecimal encoding of the numeric value of the reference", "0x
    followed by hexadecimal digits".  An address is a 64-bit number; it is
    written as 0x and sixteen lower-case hexadecimal digits. *)
Definition hex_char (d : Z) : ascii :=
  if d <? 10 then ascii_of_nat (Z.to_nat (48 + d))
  else ascii_of_nat (Z.to_nat (87 + d)).

Fixpoint hex_digits (digits : nat) (n : Z) : text :=
  match digits with
  | O => []
  | S digits' => hex_digits digits' (n / 16) ++ [hex_char (n mod 16)]
  end.

Definition address_text (p : Z) : text :=
  "0"%char :: "x"%char :: hex_digits 16 p.

Definition valid_address (p : Z) : bool := (0 <=? p) && (p <? 2 ^ 64).

(** What the specification leaves to the implementation: the text of the
    floating-point types and the whitespace unit of [Indent]. *)
Record Choices : Type := {
  float_text : spec_float -> text;
  double_text : spec_float -> text;
  indent_unit : text
}.

(** ** The overloads of [format1] *)

Section Overloads.
Context {St E : Type}.
Variable impl : Choices.

(** Modelled from the spec: the bodies of the [format1] overloads declared
    at lines 21-32, 40 and 48 of the header; format.cpp, which defines
    them, is not at hand.  Each writes the text of section 4.2 to the
    stream it is given, through the stream's own members. *)
Definition format1_integer (s : FormatStream St E) (v : Z)
  : St -> outcome St E :=
  puts s (decimal v).

Definition format1_float (s : FormatStream St E) (v : spec_float)
  : St -> outcome St E :=
  puts s (float_text impl v).

Definition format1_double (s : FormatStream St E) (v : spec_float)
  : St -> outcome St E :=
  puts s (double_text impl v).

(** "the characters themselves, verbatim, no quoting or escaping added" *)
Definition format1_cstring (s : FormatStream St E) (v : text)
  : St -> outcome St E :=
  puts s v.

Definition format1_string (s : FormatStream St E) (t : text)
  : St -> outcome St E :=
  write s t.

Definition format1_FormatAddress (s : FormatStream St E) (p : Z)
  : St -> outcome St E :=
  puts s (address_text p).

(** "exactly [indent] repetitions of a single whitespace unit"; "negative
    or zero indent must emit nothing, not error": a counting loop
    [for (i = 0; i < indent; ++i)]. *)
Fixpoint repeat_call (n : nat) (call : St -> outcome St E)
  : St -> outcome St E :=
  match n with
  | O => skip
  | S n' => call ;; repeat_call n' call
  end.

Definition format1_Indent (s : FormatStream St E) (indent : Z)
  : St -> outcome St E :=
  repeat_call (Z.to_nat indent) (puts s (indent_unit impl)).

(** The overload set, by the type the argument has reached. *)
Definition format1 (s : FormatStream St E) (v : Value)
  : St -> outcome St E :=
  match v with
  | VInteger _ n => format1_integer s n
  | VFloat x => format1_float s x
  | VDouble x => format1_double s x
  | VCString c => format1_cstring s c
  | VString t => format1_string s t
  | VFormatAddress p => format1_FormatAddress s p
  | VIndent n => format1_Indent s n
  end.

(** An error observed by a caller is one that a member of the stream
    raised: some call of [write], [putc] or [puts] ended with this very
    exception and state. *)
Inductive raised_by_sink (s : FormatStream St E) (e : E) (st' : St) : Prop :=
| raised_by_write (p : list ascii) (st : St) :
    write s p st = Thrown e st' -> raised_by_sink s e st'
| raised_by_putc (c : Z) (st : St) :
    putc s c st = Thrown e st' -> raised_by_sink s e st'
| raised_by_puts (t : text) (st : St) :
    puts s t st = Thrown e st' -> raised_by_sink s e st'.

(** A stream none of whose members ever throws. *)
Definition never_throws (s : FormatStream St E) : Prop :=
  forall (t : text) (c : Z) (st : St),
    returns (write s t st) = true /\
    returns (putc s c st) = true /\
    returns (puts s t st) = true.
End Overloads.

(** The spec's reading of the composition: "invokes the single-value
    conversion for each value, strictly in the order given, writing all
    output to the same sink". *)
Definition format_each {St E Arg : Type}
    (format1 : FormatStream St E -> Arg -> St -> outcome St E)
    (s : FormatStream St E) (args : list Arg) : St -> outcome St E :=
  fold_right (fun a rest => format1 s a ;; rest) skip args.

(** A stand-in for [format1] that only records, in the state, the argument
    it is invoked on. *)
Definition record_call {E Arg : Type}
    (_ : FormatStream (list Arg) E) (a : Arg) (log : list Arg)
  : outcome (list Arg) E :=
  Returned (log ++ [a]).

(** ** Concrete streams *)

(** [putc(int c)] writes [c] converted to [unsigned char]. *)
Definition char_of_int (c : Z) : ascii := ascii_of_nat (Z.to_nat (c mod 256)).

(** Modelled from the spec: a stream that keeps what it receives (the
    concrete subclasses of [FormatStream] are in format.cpp, not at hand).
    Section 4.1: [write] "copies exactly length bytes ... in order", [putc]
    "appends a single character", [puts] "appends a ... character
    sequence".  It never throws. *)
Definition BufferStream {E : Type} : FormatStream text E := {|
  write := fun p buf => Returned (buf ++ p);
  putc := fun c buf => Returned (buf ++ [char_of_int c]);
  puts := fun t buf => Returned (buf ++ t)
|}.

(** A buffer of bounded capacity: a call that does not fit throws [Full]
    and writes nothing ("destination full", section 4.1). *)
Inductive stream_error : Type := Full.

Definition bounded_append (capacity : nat) (t : text) (buf : text)
  : outcome text stream_error :=
  if (length (buf ++ t) <=? capacity)%nat then Returned (buf ++ t)
  else Thrown Full buf.

Definition BoundedStream (capacity : nat) : FormatStream text stream_error := {|
  write := fun p => bounded_append capacity p;
  putc := fun c => bounded_append capacity [char_of_int c];
  puts := fun t => bounded_append capacity t
|}.

(** A stream under observation: [WatchedStream s] behaves as [s] and keeps,
    beside the state of [s], the list of the exceptions its members have
    thrown so far. *)
Definition watch {St E : Type} (call : St -> outcome St E)
    (w : St * list E) : outcome (St * list E) E :=
  match call (fst w) with
  | Returned st' => Returned (st', snd w)
  | Thrown e st' => Thrown e (st', snd w ++ [e])
  end.

Definition WatchedStream {St E : Type} (s : FormatStream St E)
  : FormatStream (St * list E) E := {|
  write := fun p => watch (write s p);
  putc := fun c => watch (putc s c);
  puts := fun t => watch (puts s t)
|}.

(** What a caller gets from a run, [o] on the stream itself and [ow] on the
    watched stream, against what the members threw during the run (the
    members had thrown [seen] before): the run returned and no member
    threw, or the run threw [e] and [e] is the one exception a member
    threw; and watching changes nothing. *)
Definition reaches_caller {St E : Type} (seen : list E)
    (o : outcome St E) (ow : outcome (St * list E) E) : Prop :=
  match ow with
  | Returned w => snd w = seen /\ o = Returned (fst w)
  | Thrown e w => snd w = seen ++ [e] /\ o = Thrown e (fst w)
  end.

(** The text [format1] writes for one value: what a buffer that starts
    empty holds afterwards. *)
Definition rendering (impl : Choices) (v : Value) : text :=
  final (format1 impl (@BufferStream Empty_set) v []).

(** ** Reading decimal text back *)

(** The spec's "parsing the result as the same integer type": an optional
    minus sign for the signed types, at least one decimal digit, and a value
    within the range of the type. *)
Definition digit_value (c : ascii) : option Z :=
  let n := Z.of_nat (nat_of_ascii c) in
  if (48 <=? n) && (n <=? 57) then Some (n - 48) else None.

Fixpoint parse_digits (cs : text) (acc : Z) : option Z :=
  match cs with
  | [] => Some acc
  | c :: cs' =>
      match digit_value c with
      | Some d => parse_digits cs' (10 * acc + d)
      | None => None
      end
  end.

Definition parse_unsigned (cs : text) : option Z :=
  match cs with
  | [] => None
  | _ :: _ => parse_digits cs 0
  end.

Definition parse_integer (t : ctype) (cs : text) : option Z :=
  let parsed :=
    match cs with
    | c :: ds =>
        if Ascii.eqb c "-"%char
        then if is_signed t then option_map Z.opp (parse_unsigned ds) else None
        else parse_unsigned cs
    | [] => None
    end in
  match parsed with
  | Some v => if in_range t v then Some v else None
  | None => None
  end.

(** Reading sixteen hexadecimal digits back. *)
Definition hex_value (c : ascii) : Z :=
  let n := Z.of_nat (nat_of_ascii c) in
  if n <? 58 then n - 48 else n - 87.

Definition parse_hex (cs : text) : Z :=
  fold_left (fun acc c => 16 * acc + hex_value c) cs 0.

Definition is_digit (c : ascii) : bool :=
  match digit_value c with Some _ => true | None => false end.

(** Examples of the choices left open, for concrete runs. *)
Definition two_spaces : Choices := {|
  float_text := fun _ => [];
  double_text := fun _ => [];
  indent_unit := [" "%char; " "%char]
|}.

Definition txt (s : String.string) : text := String.list_ascii_of_string s.
Arguments txt s%_string.

(** * Properties *)

(** ** Sequencing *)

Section Sequencing.
Context {St E : Type}.
Implicit Types a b c : St -> outcome St E.

Lemma and_then_skip_r a st : (a ;; skip) st = a st.
Proof. unfold and_then, skip. destruct (a st); reflexivity. Qed.

Lemma and_then_skip_l a st : (skip ;; a) st = a st.
Proof. reflexivity. Qed.

Lemma and_then_assoc a b c st : ((a ;; b) ;; c) st = (a ;; (b ;; c)) st.
Proof. unfold and_then. destruct (a st); reflexivity. Qed.

Lemma and_then_returned a b st st' :
  a st = Returned st' -> (a ;; b) st = b st'.
Proof. unfold and_then. intros ->. reflexivity. Qed.

Lemma and_then_thrown a b st e st' :
  a st = Thrown e st' -> (a ;; b) st = Thrown e st'.
Proof. unfold and_then. intros ->. reflexivity. Qed.

(** A throw of [a ;; b] is a throw of [a], or one of [b] after [a]
    returned. *)
Lemma and_then_thrown_inv a b st e st' :
  (a ;; b) st = Thrown e st' ->
  a st = Thrown e st' \/ exists st1, a st = Returned st1 /\ b st1 = Thrown e st'.
Proof.
  unfold and_then. destruct (a st) as [st1 | e1 st1]; intros H.
  - right. exists st1. split; [reflexivity | exact H].
  - left. exact H.
Qed.
End Sequencing.

(** ** The fold of [format] *)

Section FormatFold.
Context {St E Arg : Type}.
Variable f1 : FormatStream St E -> Arg -> St -> outcome St E.
Variable s : FormatStream St E.

Lemma format_cons a rest st :
  format f1 s (a :: rest) st = (f1 s a ;; format f1 s rest) st.
Proof.
  destruct rest as [| b rest]; [| reflexivity].
  cbn [format]. symmetry. apply and_then_skip_r.
Qed.

Lemma format_is_format_each args st :
  format f1 s args st = format_each f1 s args st.
Proof.
  revert st. induction args as [| a rest IH]; intros st; [reflexivity |].
  rewrite format_cons. cbn [format_each fold_right].
  unfold and_then. destruct (f1 s a st); [apply IH | reflexivity].
Qed.

Lemma format_app xs ys st :
  format f1 s (xs ++ ys) st = (format f1 s xs ;; format f1 s ys) st.
Proof.
  revert st. induction xs as [| a xs IH]; intros st; [reflexivity |].
  rewrite <- app_comm_cons, format_cons.
  unfold and_then at 2. rewrite format_cons.
  unfold and_then. destruct (f1 s a st) as [st1 | e st1]; [| reflexivity].
  rewrite IH. reflexivity.
Qed.

(** An argument whose conversion throws ends the fold there. *)
Lemma format_stops_at_throw xs a ys st st1 e st2 :
  format f1 s xs st = Returned st1 ->
  f1 s a st1 = Thrown e st2 ->
  format f1 s (xs ++ a :: ys) st = Thrown e st2.
Proof.
  intros Hxs Ha. rewrite format_app.
  rewrite (and_then_returned _ _ _ _ Hxs), format_cons.
  apply and_then_thrown, Ha.
Qed.

(** A throw of the fold is the throw of one conversion. *)
Lemma format_thrown_inv args st e st' :
  format f1 s args st = Thrown e st' ->
  exists a st0, In a args /\ f1 s a st0 = Thrown e st'.
Proof.
  revert st. induction args as [| a rest IH]; intros st H.
  - discriminate H.
  - rewrite format_cons in H.
    apply and_then_thrown_inv in H as [H | (st1 & _ & H)].
    + exists a, st. split; [left; reflexivity | exact H].
    + destruct (IH _ H) as (b & st0 & Hin & Hb).
      exists b, st0. split; [right; exact Hin | exact Hb].
Qed.
End FormatFold.

(** ** What the buffer receives *)

Lemma repeat_puts_buffer {E : Type} (u : text) (n : nat) (buf : text) :
  repeat_call n (puts (@BufferStream E) u) buf
  = Returned (buf ++ concat (repeat u n)).
Proof.
  revert buf. induction n as [| n IH]; intros buf; cbn [repeat_call].
  - cbn. rewrite app_nil_r. reflexivity.
  - unfold and_then. cbn [puts BufferStream].
    rewrite IH. cbn [repeat concat]. rewrite app_assoc. reflexivity.
Qed.

Lemma rendering_Indent (impl : Choices) (n : Z) :
  rendering impl (VIndent n) = concat (repeat (indent_unit impl) (Z.to_nat n)).
Proof.
  unfold rendering. cbn [format1]. unfold format1_Indent.
  rewrite repeat_puts_buffer. reflexivity.
Qed.

(** On a buffer, each overload appends its text and returns. *)
Lemma format1_buffer {E : Type} (impl : Choices) (v : Value) (buf : text) :
  format1 impl (@BufferStream E) v buf = Returned (buf ++ rendering impl v).
Proof.
  destruct v; try reflexivity.
  rewrite rendering_Indent. cbn [format1]. unfold format1_Indent.
  apply repeat_puts_buffer.
Qed.

Lemma format_buffer {E : Type} (impl : Choices) (args : list Value) (buf : text) :
  format (format1 impl) (@BufferStream E) args buf
  = Returned (buf ++ concat (map (rendering impl) args)).
Proof.
  revert buf. induction args as [| a rest IH]; intros buf.
  - cbn. rewrite app_nil_r. reflexivity.
  - rewrite format_cons.
    rewrite (and_then_returned _ _ _ _ (format1_buffer impl a buf)).
    rewrite IH. cbn [map concat]. rewrite app_assoc. reflexivity.
Qed.

Lemma format_record_call {E Arg : Type} (s : FormatStream (list Arg) E)
    (args log : list Arg) :
  format record_call s args log = Returned (log ++ args).
Proof.
  revert log. induction args as [| a rest IH]; intros log.
  - cbn. rewrite app_nil_r. reflexivity.
  - rewrite format_cons. unfold and_then, record_call at 1.
    rewrite IH, <- app_assoc. reflexivity.
Qed.

(** ** The composition and [print] *)

(** C1: [format] invokes [format1] once for each argument, in argument
    order: its fold is the spec's one-by-one iteration on every stream, a
    recording [format1] sees exactly the argument list, and a buffer
    receives the texts of the arguments concatenated, nothing between them. *)
Theorem format_in_argument_order :
  (forall (St E Arg : Type)
          (f1 : FormatStream St E -> Arg -> St -> outcome St E)
          (s : FormatStream St E) (args : list Arg) (st : St),
      format f1 s args st = format_each f1 s args st) /\
  (forall (E Arg : Type) (s : FormatStream (list Arg) E) (args log : list Arg),
      format record_call s args log = Returned (log ++ args)) /\
  (forall (E : Type) (impl : Choices) (args : list Value) (buf : text),
      format (format1 impl) (@BufferStream E) args buf
      = Returned (buf ++ concat (map (rendering impl) args))).
Proof.
  split; [| split].
  - intros. apply format_is_format_each.
  - intros. apply format_record_call.
  - intros. apply format_buffer.
Qed.

(** C2: [print] is [format] on [outs] followed by one line terminator: once
    [format] has returned, the only further call is [outs.putc] of the
    newline, and on a buffer the result is the output of [format] with the
    single character newline appended. *)
Theorem print_appends_one_newline :
  (forall (St E Arg : Type)
          (f1 : FormatStream St E -> Arg -> St -> outcome St E)
          (outs : FormatStream St E) (args : list Arg) (st st' : St),
      format f1 outs args st = Returned st' ->
      print f1 outs args st = putc outs 10 st') /\
  (forall (E : Type) (impl : Choices) (args : list Value) (buf : text),
      print (format1 impl) (@BufferStream E) args buf
      = Returned
          (final (format (format1 impl) (@BufferStream E) args buf)
             ++ ["010"%char])).
Proof.
  split.
  - intros. unfold print. apply and_then_returned. assumption.
  - intros. unfold print.
    rewrite (and_then_returned _ _ _ _ (format_buffer impl args buf)).
    rewrite format_buffer. reflexivity.
Qed.

(** C10: without arguments [format] returns at once with the stream as it
    was, and [print] does nothing but [outs.putc] of the newline. *)
Theorem format_and_print_without_arguments :
  (forall (St E Arg : Type)
          (f1 : FormatStream St E -> Arg -> St -> outcome St E)
          (s : FormatStream St E) (st : St),
      format f1 s [] st = Returned st) /\
  (forall (St E Arg : Type)
          (f1 : FormatStream St E -> Arg -> St -> outcome St E)
          (outs : FormatStream St E) (st : St),
      print f1 outs [] st = putc outs 10 st) /\
  (forall (E Arg : Type)
          (f1 : FormatStream text E -> Arg -> text -> outcome text E)
          (buf : text),
      print f1 BufferStream [] buf = Returned (buf ++ ["010"%char])).
Proof.
  split; [| split]; intros; reflexivity.
Qed.

(** ** Character sequences and indentation *)

(** C6: a C string and a [std::string] reach the stream as their own
    characters, in one call of [puts], respectively [write], on any stream:
    a buffer grows by exactly these, nothing before, between or after
    them. *)
Theorem character_sequences_verbatim :
  forall (impl : Choices) (cs : text),
    (forall (St E : Type) (s : FormatStream St E) (st : St),
        format1 impl s (VCString cs) st = puts s cs st /\
        format1 impl s (VString cs) st = write s cs st) /\
    (forall (E : Type) (buf : text),
        format1 impl (@BufferStream E) (VCString cs) buf = Returned (buf ++ cs) /\
        format1 impl (@BufferStream E) (VString cs) buf = Returned (buf ++ cs)) /\
    rendering impl (VCString cs) = cs /\
    rendering impl (VString cs) = cs.
Proof.
  intros. repeat split; reflexivity.
Qed.

(** C3: [Indent(n)] with [n <= 0] calls nothing on the stream and returns,
    so it writes the empty text; with [n > 0] it writes the indent unit
    exactly [n] times, the same unit whatever [n] and the buffer are. *)
Theorem indent_repeats_the_unit :
  forall (impl : Choices) (n : Z),
    (n <= 0 ->
     rendering impl (VIndent n) = [] /\
     forall (St E : Type) (s : FormatStream St E) (st : St),
       format1 impl s (VIndent n) st = Returned st) /\
    (0 < n ->
     exists k : nat,
       Z.of_nat k = n /\
       forall (E : Type) (buf : text),
         format1 impl (@BufferStream E) (VIndent n) buf
         = Returned (buf ++ concat (repeat (indent_unit impl) k))).
Proof.
  intros impl n. split; intros Hn.
  - assert (Hk : Z.to_nat n = 0%nat) by lia.
    split.
    + rewrite rendering_Indent, Hk. reflexivity.
    + intros. cbn [format1]. unfold format1_Indent. rewrite Hk. reflexivity.
  - exists (Z.to_nat n). split; [lia |].
    intros. cbn [format1]. unfold format1_Indent. apply repeat_puts_buffer.
Qed.

(** ** Errors *)

Section Errors.
Context {St E : Type}.
Variable impl : Choices.
Variable s : FormatStream St E.

Lemma repeat_call_thrown_inv (call : St -> outcome St E) n st e st' :
  repeat_call n call st = Thrown e st' ->
  exists st0, call st0 = Thrown e st'.
Proof.
  revert st. induction n as [| n IH]; intros st H; [discriminate H |].
  cbn [repeat_call] in H.
  apply and_then_thrown_inv in H as [H | (st1 & _ & H)].
  - exists st. exact H.
  - exact (IH _ H).
Qed.

Lemma format1_thrown_inv v st e st' :
  format1 impl s v st = Thrown e st' -> raised_by_sink s e st'.
Proof.
  destruct v; cbn [format1]; intros H;
    try (eapply raised_by_puts; exact H).
  - eapply raised_by_write; exact H.
  - apply repeat_call_thrown_inv in H as (st0 & H).
    eapply raised_by_puts; exact H.
Qed.

Lemma and_then_returns (a b : St -> outcome St E) :
  (forall st, returns (a st) = true) ->
  (forall st, returns (b st) = true) ->
  forall st, returns ((a ;; b) st) = true.
Proof.
  intros Ha Hb st. unfold and_then.
  specialize (Ha st). destruct (a st); [apply Hb | discriminate Ha].
Qed.

Hypothesis quiet : never_throws s.

Lemma format1_returns v st : returns (format1 impl s v st) = true.
Proof.
  destruct v; cbn [format1];
    try (apply (quiet _ 0 st)).
  unfold format1_Indent.
  revert st. induction (Z.to_nat indent) as [| n IH]; intros st.
  - reflexivity.
  - cbn [repeat_call]. apply and_then_returns; [| exact IH].
    intros st0. apply (quiet _ 0 st0).
Qed.

Lemma format_returns args st :
  returns (format (format1 impl) s args st) = true.
Proof.
  revert st. induction args as [| a rest IH]; intros st; [reflexivity |].
  rewrite format_cons. apply and_then_returns; [| exact IH].
  apply format1_returns.
Qed.
End Errors.

(** *** Throws of the members under observation *)

Section Watched.
Context {St E : Type}.
Variable s : FormatStream St E.

Lemma watch_reaches_caller (call : St -> outcome St E) st seen :
  reaches_caller seen (call st) (watch call (st, seen)).
Proof.
  unfold reaches_caller, watch. cbn [fst snd].
  destruct (call st); split; reflexivity.
Qed.

Lemma and_then_reaches_caller
    (a b : St -> outcome St E)
    (aw bw : St * list E -> outcome (St * list E) E) :
  (forall st seen, reaches_caller seen (a st) (aw (st, seen))) ->
  (forall st seen, reaches_caller seen (b st) (bw (st, seen))) ->
  forall st seen, reaches_caller seen ((a ;; b) st) ((aw ;; bw) (st, seen)).
Proof.
  intros Ha Hb st seen. specialize (Ha st seen).
  unfold and_then. unfold reaches_caller in Ha.
  destruct (aw (st, seen)) as [[st1 seen1] | e [st1 seen1]];
    cbn [fst snd] in Ha; destruct Ha as [-> ->].
  - apply Hb.
  - split; reflexivity.
Qed.

Lemma repeat_call_reaches_caller
    (call : St -> outcome St E)
    (callw : St * list E -> outcome (St * list E) E) (n : nat) :
  (forall st seen, reaches_caller seen (call st) (callw (st, seen))) ->
  forall st seen,
    reaches_caller seen (repeat_call n call st) (repeat_call n callw (st, seen)).
Proof.
  intros Hcall. induction n as [| n IH]; cbn [repeat_call].
  - intros st seen. split; reflexivity.
  - apply and_then_reaches_caller; assumption.
Qed.

Lemma format1_reaches_caller (impl : Choices) (v : Value) st seen :
  reaches_caller seen (format1 impl s v st)
                 (format1 impl (WatchedStream s) v (st, seen)).
Proof.
  destruct v; cbn [format1]; try apply watch_reaches_caller.
  unfold format1_Indent. apply repeat_call_reaches_caller.
  intros st0 seen0. apply watch_reaches_caller.
Qed.

Lemma format_reaches_caller (impl : Choices) (args : list Value) :
  forall st seen,
    reaches_caller seen (format (format1 impl) s args st)
                   (format (format1 impl) (WatchedStream s) args (st, seen)).
Proof.
  induction args as [| a rest IH]; intros st seen.
  - split; reflexivity.
  - rewrite !format_cons. revert st seen.
    apply and_then_reaches_caller; [| exact IH].
    intros st seen. apply format1_reaches_caller.
Qed.

Lemma print_reaches_caller (impl : Choices) (args : list Value) st seen :
  reaches_caller seen (print (format1 impl) s args st)
                 (print (format1 impl) (WatchedStream s) args (st, seen)).
Proof.
  unfold print. revert st seen. apply and_then_reaches_caller.
  - apply format_reaches_caller.
  - intros st seen. apply watch_reaches_caller.
Qed.
End Watched.

(** C7: the formatter adds no error and hides none.  Whatever [format] or
    [print] throws was thrown, with this very value and stream state, by a
    call of [write], [putc] or [puts] of the stream; on a stream whose
    members never throw both return; a throw inside the conversion of one
    argument leaves [format] and [print] as it is, the later arguments and
    the newline not being written; a throw of the final [outs.putc] leaves
    [print] as it is; and every throw of a member reaches the caller: on a
    watched stream, a conversion, [format] and [print] return only if no
    member threw, and otherwise throw the one exception a member threw,
    all as on the stream itself. *)
Theorem errors_are_the_sink_s_own :
  (forall (St E : Type) (impl : Choices) (s : FormatStream St E)
          (args : list Value) (st : St) (e : E) (st' : St),
      format (format1 impl) s args st = Thrown e st' \/
      print (format1 impl) s args st = Thrown e st' ->
      raised_by_sink s e st') /\
  (forall (St E : Type) (impl : Choices) (s : FormatStream St E)
          (args : list Value) (st : St),
      never_throws s ->
      returns (format (format1 impl) s args st) = true /\
      returns (print (format1 impl) s args st) = true) /\
  (forall (St E Arg : Type)
          (f1 : FormatStream St E -> Arg -> St -> outcome St E)
          (s : FormatStream St E) (xs : list Arg) (a : Arg) (ys : list Arg)
          (st st1 : St) (e : E) (st2 : St),
      format f1 s xs st = Returned st1 ->
      f1 s a st1 = Thrown e st2 ->
      format f1 s (xs ++ a :: ys) st = Thrown e st2 /\
      print f1 s (xs ++ a :: ys) st = Thrown e st2) /\
  (forall (St E Arg : Type)
          (f1 : FormatStream St E -> Arg -> St -> outcome St E)
          (outs : FormatStream St E) (args : list Arg)
          (st st1 : St) (e : E) (st2 : St),
      format f1 outs args st = Returned st1 ->
      putc outs 10 st1 = Thrown e st2 ->
      print f1 outs args st = Thrown e st2) /\
  (forall (St E : Type) (impl : Choices) (s : FormatStream St E)
          (v : Value) (args : list Value) (st : St),
      reaches_caller [] (format1 impl s v st)
                     (format1 impl (WatchedStream s) v (st, [])) /\
      reaches_caller [] (format (format1 impl) s args st)
                     (format (format1 impl) (WatchedStream s) args (st, [])) /\
      reaches_caller [] (print (format1 impl) s args st)
                     (print (format1 impl) (WatchedStream s) args (st, []))).
Proof.
  split; [| split; [| split; [| split]]].
  - intros St E impl s args st e st' H.
    assert (Hformat : forall st0, format (format1 impl) s args st0 = Thrown e st' ->
                                  raised_by_sink s e st').
    { intros st0 H0. apply format_thrown_inv in H0 as (a & st1 & _ & Ha).
      exact (format1_thrown_inv impl s a st1 e st' Ha). }
    destruct H as [H | H]; [exact (Hformat _ H) |].
    unfold print in H.
    apply and_then_thrown_inv in H as [H | (st1 & _ & H)].
    + exact (Hformat _ H).
    + eapply raised_by_putc; exact H.
  - intros St E impl s args st quiet. split.
    + apply format_returns, quiet.
    + unfold print. apply and_then_returns.
      * intros st0. apply format_returns, quiet.
      * intros st0. apply (quiet [] 10 st0).
  - intros St E Arg f1 s xs a ys st st1 e st2 Hxs Ha.
    pose proof (format_stops_at_throw f1 s xs a ys st st1 e st2 Hxs Ha) as H.
    split; [exact H |].
    unfold print. apply and_then_thrown, H.
  - intros St E Arg f1 outs args st st1 e st2 Hformat Hputc.
    unfold print. rewrite (and_then_returned _ _ _ _ Hformat). exact Hputc.
  - intros St E impl s v args st. split; [| split].
    + apply format1_reaches_caller.
    + apply format_reaches_caller.
    + apply print_reaches_caller.
Qed.

(** ** Decimal digits *)

Ltac digit_cases d H :=
  let C := fresh "C" in
  assert (C : d = 0 \/ d = 1 \/ d = 2 \/ d = 3 \/ d = 4 \/ d = 5 \/ d = 6 \/
              d = 7 \/ d = 8 \/ d = 9 \/ d = 10 \/ d = 11 \/ d = 12 \/
              d = 13 \/ d = 14 \/ d = 15) by lia;
  clear H;
  repeat (destruct C as [C | C]; [subst d |]); [.. | subst d].

Lemma digit_value_digit_char d :
  0 <= d < 10 -> digit_value (digit_char d) = Some d.
Proof.
  intros H.
  assert (H16 : 0 <= d < 16) by lia.
  digit_cases d H16; try reflexivity; lia.
Qed.

Lemma is_digit_digit_char d : 0 <= d < 10 -> is_digit (digit_char d) = true.
Proof.
  intros H. unfold is_digit. rewrite (digit_value_digit_char d H). reflexivity.
Qed.

Lemma parse_digits_app ds es acc :
  parse_digits (ds ++ es) acc
  = match parse_digits ds acc with
    | Some acc' => parse_digits es acc'
    | None => None
    end.
Proof.
  revert acc. induction ds as [| c ds IH]; intros acc; [reflexivity |].
  cbn [app parse_digits]. destruct (digit_value c); [apply IH | reflexivity].
Qed.

Lemma div10_below n k : 0 <= n < 2 ^ Z.of_nat (S k) -> 0 <= n / 10 < 2 ^ Z.of_nat k.
Proof.
  intros [Hlo Hhi].
  rewrite Nat2Z.inj_succ, Z.pow_succ_r in Hhi by lia.
  split; [apply Z.div_pos; lia |].
  apply Z.div_lt_upper_bound; lia.
Qed.

Lemma fuel_left n k : 0 <= n < 2 ^ Z.of_nat k -> n <> 0 -> (0 < k)%nat.
Proof.
  intros H Hn. destruct k; [cbn in H; lia | lia].
Qed.

Lemma decimal_digits_nonempty fuel n :
  (0 < fuel)%nat -> decimal_digits fuel n <> [].
Proof.
  intros Hk. destruct fuel as [| k]; [lia |]. cbn [decimal_digits].
  intros H. apply app_eq_nil in H as [_ H]. discriminate H.
Qed.

Lemma decimal_digits_parse fuel :
  forall n, 0 <= n < 2 ^ Z.of_nat fuel -> (0 < fuel)%nat ->
  forall acc,
    parse_digits (decimal_digits fuel n) acc
    = Some (acc * 10 ^ Z.of_nat (length (decimal_digits fuel n)) + n).
Proof.
  induction fuel as [| k IH]; intros n Hn Hk acc; [lia |].
  cbn [decimal_digits].
  assert (Hd : 0 <= n mod 10 < 10) by (apply Z.mod_pos_bound; lia).
  pose proof (Z.div_mod n 10 ltac:(lia)) as Hdm.
  destruct (Z.eqb_spec (n / 10) 0) as [Hz | Hnz].
  - cbn [app parse_digits length]. rewrite digit_value_digit_char by exact Hd.
    f_equal. change (Z.of_nat 1) with 1. lia.
  - pose proof (div10_below n k Hn) as Hq.
    rewrite parse_digits_app, (IH (n / 10) Hq (fuel_left _ _ Hq Hnz)).
    cbn [parse_digits]. rewrite digit_value_digit_char by exact Hd.
    f_equal. rewrite length_app. cbn [length].
    rewrite Nat2Z.inj_add, Z.pow_add_r by lia.
    change (10 ^ Z.of_nat 1) with 10. lia.
Qed.

Lemma decimal_digits_are_digits fuel :
  forall n, 0 <= n -> forallb is_digit (decimal_digits fuel n) = true.
Proof.
  induction fuel as [| k IH]; intros n Hn; [reflexivity |].
  cbn [decimal_digits]. rewrite forallb_app. cbn [forallb].
  rewrite is_digit_digit_char by (apply Z.mod_pos_bound; lia).
  destruct (n / 10 =? 0); [reflexivity |].
  rewrite IH by (apply Z.div_pos; lia). reflexivity.
Qed.

(** Only zero starts with the digit zero. *)
Lemma decimal_digits_leading fuel :
  forall n, 0 <= n < 2 ^ Z.of_nat fuel -> (0 < fuel)%nat ->
  hd "0"%char (decimal_digits fuel n) = "0"%char ->
  decimal_digits fuel n = ["0"%char].
Proof.
  induction fuel as [| k IH]; intros n Hn Hk Hhd; [lia |].
  cbn [decimal_digits] in *.
  assert (Hd : 0 <= n mod 10 < 10) by (apply Z.mod_pos_bound; lia).
  pose proof (Z.div_mod n 10 ltac:(lia)) as Hdm.
  destruct (Z.eqb_spec (n / 10) 0) as [Hz | Hnz].
  - cbn [app hd] in *. rewrite Hhd. reflexivity.
  - exfalso.
    pose proof (div10_below n k Hn) as Hq.
    pose proof (fuel_left _ _ Hq Hnz) as Hk'.
    pose proof (decimal_digits_nonempty k (n / 10) Hk') as Hne.
    destruct (decimal_digits k (n / 10)) as [| c ds] eqn:Hds; [congruence |].
    cbn [app hd] in Hhd. subst c.
    specialize (IH (n / 10) Hq Hk').
    rewrite Hds in IH. specialize (IH eq_refl).
    pose proof (decimal_digits_parse k (n / 10) Hq Hk' 0) as Hp.
    rewrite Hds, IH in Hp. cbn in Hp. injection Hp as Hp. lia.
Qed.

Lemma log2_fuel n : 0 <= n -> 0 <= n < 2 ^ Z.of_nat (S (Z.to_nat (Z.log2 n))).
Proof.
  intros Hn. rewrite Nat2Z.inj_succ, Z2Nat.id by apply Z.log2_nonneg.
  destruct (Z.eq_dec n 0) as [-> | Hnz]; [cbn; lia |].
  pose proof (Z.log2_spec n ltac:(lia)). lia.
Qed.

(** The digits of a natural number: at least one, all decimal, worth the
    number, and without a leading zero unless the text is "0". *)
Lemma unsigned_decimal_spec n :
  0 <= n ->
  unsigned_decimal n <> [] /\
  forallb is_digit (unsigned_decimal n) = true /\
  parse_digits (unsigned_decimal n) 0 = Some n /\
  (hd "0"%char (unsigned_decimal n) = "0"%char ->
   unsigned_decimal n = ["0"%char]).
Proof.
  intros Hn. unfold unsigned_decimal.
  pose proof (log2_fuel n Hn) as Hfuel.
  assert (Hk : (0 < S (Z.to_nat (Z.log2 n)))%nat) by lia.
  repeat split.
  - apply decimal_digits_nonempty, Hk.
  - apply decimal_digits_are_digits, Hn.
  - rewrite (decimal_digits_parse _ n Hfuel Hk 0). f_equal.
  - apply decimal_digits_leading; assumption.
Qed.

Lemma digit_is_not_minus c : is_digit c = true -> Ascii.eqb c "-"%char = false.
Proof.
  intros H. destruct (Ascii.eqb_spec c "-"%char) as [-> | _];
    [discriminate H | reflexivity].
Qed.

Lemma parse_unsigned_decimal n :
  0 <= n -> parse_unsigned (unsigned_decimal n) = Some n.
Proof.
  intros Hn. destruct (unsigned_decimal_spec n Hn) as (Hne & _ & Hp & _).
  unfold parse_unsigned.
  destruct (unsigned_decimal n); [congruence | exact Hp].
Qed.

Lemma in_range_overload t v : in_range t v = true -> integer_overload t = true.
Proof.
  unfold in_range. intros H.
  apply andb_prop in H as [H _]. apply andb_prop in H as [H _]. exact H.
Qed.

Lemma in_range_negative t v : in_range t v = true -> v < 0 -> is_signed t = true.
Proof.
  unfold in_range, int_min. intros H Hv.
  apply andb_prop in H as [H _]. apply andb_prop in H as [_ H].
  destruct (is_signed t); [reflexivity | lia].
Qed.

Lemma parse_decimal t v :
  in_range t v = true -> parse_integer t (decimal v) = Some v.
Proof.
  intros Hr. unfold parse_integer, decimal.
  destruct (Z.ltb_spec v 0) as [Hneg | Hpos].
  - rewrite Ascii.eqb_refl, (in_range_negative t v Hr Hneg).
    rewrite parse_unsigned_decimal by lia. cbn [option_map].
    rewrite Z.opp_involutive, Hr. reflexivity.
  - pose proof (parse_unsigned_decimal v Hpos) as Hp.
    destruct (unsigned_decimal_spec v Hpos) as (Hne & Hd & _ & _).
    destruct (unsigned_decimal v) as [| c ds]; [congruence |].
    cbn [forallb] in Hd. apply andb_prop in Hd as [Hc _].
    rewrite (digit_is_not_minus c Hc), Hp, Hr. reflexivity.
Qed.

Lemma rendering_integer impl t v : rendering impl (VInteger t v) = decimal v.
Proof. reflexivity. Qed.

Lemma resolve_integer_overload t : integer_overload t = true -> resolve t = Some t.
Proof. destruct t; intros H; try discriminate H; reflexivity. Qed.

(** ** Integers *)

(** C4: for every integer overload and every value of its type, reading the
    written decimal text back as that type gives the value again. *)
Theorem integer_round_trip :
  forall (impl : Choices) (t : ctype) (v : Z),
    in_range t v = true ->
    parse_integer t (rendering impl (VInteger t v)) = Some v.
Proof.
  intros impl t v Hr. rewrite rendering_integer. apply parse_decimal, Hr.
Qed.

(** C8: every signed and unsigned width of 8, 16, 32 and 64 bits has a
    declared overload, chosen for an argument of exactly that type; it writes
    a minus sign for a negative value and nothing otherwise, followed only
    by decimal digits, at least one, that are worth the magnitude and do
    not start with a zero unless the text is the single digit zero. *)
Theorem integer_overloads_write_decimal :
  (forall (signed : bool) (w : Z),
      In w [8; 16; 32; 64] ->
      exists t, In t overloads /\ integer_overload t = true /\
                width t = w /\ is_signed t = signed) /\
  (forall (impl : Choices) (t : ctype) (v : Z),
      in_range t v = true ->
      resolve t = Some t /\
      exists ds : text,
        rendering impl (VInteger t v)
        = (if v <? 0 then ["-"%char] else []) ++ ds /\
        ds <> [] /\
        forallb is_digit ds = true /\
        parse_digits ds 0 = Some (Z.abs v) /\
        (hd "0"%char ds = "0"%char -> ds = ["0"%char])).
Proof.
  split.
  - intros signed w Hw. cbn [In] in Hw.
    destruct Hw as [<- | [<- | [<- | [<- | []]]]]; destruct signed;
      [ exists TSChar | exists TUChar | exists TShort | exists TUShort
      | exists TInt | exists TUInt | exists TLong | exists TULong ];
      cbn; intuition auto.
  - intros impl t v Hr. split.
    + apply resolve_integer_overload, (in_range_overload t v Hr).
    + rewrite rendering_integer. unfold decimal.
      destruct (Z.ltb_spec v 0) as [Hneg | Hpos].
      * exists (unsigned_decimal (- v)).
        destruct (unsigned_decimal_spec (- v) ltac:(lia)) as (H1 & H2 & H3 & H4).
        rewrite Z.abs_neq by lia. auto.
      * exists (unsigned_decimal v).
        destruct (unsigned_decimal_spec v Hpos) as (H1 & H2 & H3 & H4).
        rewrite Z.abs_eq by lia. auto.
Qed.

(** ** Addresses *)

Lemma hex_value_hex_char d : 0 <= d < 16 -> hex_value (hex_char d) = d.
Proof.
  intros H. digit_cases d H; try reflexivity; lia.
Qed.

Lemma parse_hex_digits (digits : nat) :
  forall n acc,
    fold_left (fun a c => 16 * a + hex_value c) (hex_digits digits n) acc
    = acc * 16 ^ Z.of_nat digits + n mod 16 ^ Z.of_nat digits.
Proof.
  induction digits as [| k IH]; intros n acc.
  - cbn. rewrite Z.mod_1_r. lia.
  - cbn [hex_digits]. rewrite fold_left_app, IH. cbn [fold_left].
    rewrite hex_value_hex_char by (apply Z.mod_pos_bound; lia).
    rewrite Nat2Z.inj_succ, Z.pow_succ_r by lia.
    rewrite (Z.rem_mul_r n 16 (16 ^ Z.of_nat k)) by lia.
    lia.
Qed.

Lemma parse_hex_address p :
  valid_address p = true -> parse_hex (hex_digits 16 p) = p.
Proof.
  unfold valid_address, parse_hex. intros H.
  apply andb_prop in H as [Hlo Hhi].
  rewrite parse_hex_digits.
  change (16 ^ Z.of_nat 16) with (2 ^ 64).
  rewrite Z.mod_small by lia. lia.
Qed.

Lemma address_text_injective p q :
  valid_address p = true -> valid_address q = true ->
  address_text p = address_text q -> p = q.
Proof.
  intros Hp Hq H.
  apply (f_equal (fun l => tl (tl l))) in H. unfold address_text in H.
  cbn [tl] in H.
  rewrite <- (parse_hex_address p Hp), <- (parse_hex_address q Hq), H.
  reflexivity.
Qed.

Lemma rendering_address impl p :
  rendering impl (VFormatAddress p) = address_text p.
Proof. reflexivity. Qed.

(** C5: the text of a [FormatAddress] is never empty, is the same whenever
    the address is the same, whatever the stream already holds, and differs
    for two different addresses. *)
Theorem address_text_identifies_the_address :
  forall (impl : Choices) (p q : Z),
    valid_address p = true -> valid_address q = true ->
    rendering impl (VFormatAddress p) <> [] /\
    (forall (E : Type) (buf : text),
        format1 impl (@BufferStream E) (VFormatAddress p) buf
        = Returned (buf ++ rendering impl (VFormatAddress p))) /\
    (p = q ->
     rendering impl (VFormatAddress p) = rendering impl (VFormatAddress q)) /\
    (p <> 0 -> q <> 0 -> p <> q ->
     rendering impl (VFormatAddress p) <> rendering impl (VFormatAddress q)).
Proof.
  intros impl p q Hp Hq. rewrite !rendering_address.
  repeat split.
  - discriminate.
  - intros ->. reflexivity.
  - intros _ _ Hne H. apply Hne, (address_text_injective p q Hp Hq H).
Qed.

(** ** Plain [char] *)

Lemma decimal_is_not_the_character c :
  -128 <= c <= 255 -> decimal c <> [char_of_int c].
Proof.
  intros Hc.
  assert (Hall :
            forallb (fun k => if list_eq_dec ascii_dec (decimal k) [char_of_int k]
                              then false else true)
                    (map (fun i => Z.of_nat i - 128) (seq 0 384)) = true)
    by (vm_compute; reflexivity).
  rewrite forallb_forall in Hall.
  specialize (Hall c).
  destruct (list_eq_dec ascii_dec (decimal c) [char_of_int c]) as [_ | Hne];
    [| exact Hne].
  assert (Hin : In c (map (fun i => Z.of_nat i - 128) (seq 0 384))).
  { apply in_map_iff. exists (Z.to_nat (c + 128)). split; [lia |].
    apply in_seq. lia. }
  specialize (Hall Hin). discriminate Hall.
Qed.

(** C9: no overload takes a plain [char]; the call resolves, by integral
    promotion, to the [int] overload with the value unchanged, so what is
    written is the decimal text of the character code and not the
    character. *)
Theorem plain_char_is_written_as_a_number :
  forall (impl : Choices) (c : Z),
    -128 <= c <= 255 ->
    ~ In TChar overloads /\
    implicit_conversion TChar TInt = Some Promotion /\
    resolve TChar = Some TInt /\
    integer_argument TChar c = Some (VInteger TInt c) /\
    (forall (E : Type) (buf : text),
        format (format1 impl) (@BufferStream E) [VInteger TInt c] buf
        = Returned (buf ++ decimal c)) /\
    decimal c <> [char_of_int c].
Proof.
  intros impl c Hc. repeat split.
  - cbn [In overloads]. intuition discriminate.
  - unfold integer_argument. change (resolve TChar) with (Some TInt).
    cbn [integer_overload]. do 2 f_equal.
    unfold wrap. cbn [width is_signed andb int_max].
    change (2 ^ 32) with 4294967296. change (2 ^ (32 - 1) - 1) with 2147483647.
    destruct (Z_lt_dec c 0).
    + replace (c mod 4294967296) with (c + 4294967296).
      * destruct (Z.ltb_spec 2147483647 (c + 4294967296)); lia.
      * apply Z.mod_unique with (q := -1); lia.
    + rewrite Z.mod_small by lia.
      destruct (Z.ltb_spec 2147483647 c); lia.
  - apply decimal_is_not_the_character, Hc.
Qed.

(** ** Concrete runs *)

Example format_mixed_arguments :
  format (format1 two_spaces) (@BufferStream Empty_set)
         [VIndent 3; VCString (txt "x = "); VInteger TInt (-42);
          VString (txt " at "); VFormatAddress 3735928559]
         []
  = Returned (txt "      x = -42 at 0x00000000deadbeef").
Proof. vm_compute. reflexivity. Qed.

Example print_on_a_full_stream :
  print (format1 two_spaces) (BoundedStream 5)
        [VInteger TInt 42; VCString (txt "abcd"); VCString (txt "e")] []
  = Thrown Full (txt "42").
Proof. vm_compute. reflexivity. Qed.

Example long_long_is_ambiguous : resolve TLongLong = None.
Proof. reflexivity. Qed.

Lemma print_appends_one_newline_witness :
  format (format1 two_spaces) (@BufferStream Empty_set)
         [VInteger TInt 42; VCString (txt " items")] []
  = Returned (txt "42 items") /\
  print (format1 two_spaces) (@BufferStream Empty_set)
        [VInteger TInt 42; VCString (txt " items")] []
  = putc BufferStream 10 (txt "42 items").
Proof.
  split; [vm_compute; reflexivity |].
  apply (proj1 print_appends_one_newline). vm_compute. reflexivity.
Defined.

Lemma indent_repeats_the_unit_witness :
  (-2 <= 0 /\ rendering two_spaces (VIndent (-2)) = []) /\
  (0 < 3 /\
   exists k : nat,
     Z.of_nat k = 3 /\
     forall (E : Type) (buf : text),
       format1 two_spaces (@BufferStream E) (VIndent 3) buf
       = Returned (buf ++ concat (repeat (indent_unit two_spaces) k))).
Proof.
  split; split; try lia.
  - apply (proj1 (indent_repeats_the_unit two_spaces (-2))). lia.
  - apply (proj2 (indent_repeats_the_unit two_spaces 3)). lia.
Defined.

Lemma integer_round_trip_witness :
  in_range TLong (-9223372036854775808) = true /\
  parse_integer TLong (rendering two_spaces (VInteger TLong (-9223372036854775808)))
  = Some (-9223372036854775808).
Proof.
  split; [reflexivity |].
  apply (integer_round_trip two_spaces TLong (-9223372036854775808)).
  reflexivity.
Defined.

Lemma address_text_identifies_the_address_witness :
  valid_address 3735928559 = true /\ valid_address 4096 = true /\
  3735928559 <> 0 /\ 4096 <> 0 /\ 3735928559 <> 4096 /\
  rendering two_spaces (VFormatAddress 3735928559)
  <> rendering two_spaces (VFormatAddress 4096).
Proof.
  repeat (split; [first [reflexivity | lia] |]).
  apply (address_text_identifies_the_address two_spaces 3735928559 4096);
    first [reflexivity | lia].
Defined.

Lemma never_throws_buffer (E : Type) : never_throws (@BufferStream E).
Proof. intros t c st. repeat split. Qed.

Lemma errors_are_the_sink_s_own_witness :
  (format (format1 two_spaces) (BoundedStream 5)
          [VInteger TInt 42; VCString (txt "abcd")] []
   = Thrown Full (txt "42") /\
   raised_by_sink (BoundedStream 5) Full (txt "42")) /\
  (never_throws (@BufferStream Empty_set) /\
   returns (print (format1 two_spaces) (@BufferStream Empty_set)
                  [VIndent 2; VCString (txt "x")] []) = true) /\
  (format (format1 two_spaces) (BoundedStream 5) [VInteger TInt 42] []
   = Returned (txt "42") /\
   format1 two_spaces (BoundedStream 5) (VCString (txt "abcd")) (txt "42")
   = Thrown Full (txt "42") /\
   print (format1 two_spaces) (BoundedStream 5)
         ([VInteger TInt 42] ++ VCString (txt "abcd") :: [VCString (txt "e")]) []
   = Thrown Full (txt "42")) /\
  (format (format1 two_spaces) (BoundedStream 5)
          [VInteger TInt 42; VCString (txt "abc")] []
   = Returned (txt "42abc") /\
   putc (BoundedStream 5) 10 (txt "42abc") = Thrown Full (txt "42abc") /\
   print (format1 two_spaces) (BoundedStream 5)
         [VInteger TInt 42; VCString (txt "abc")] []
   = Thrown Full (txt "42abc")) /\
  reaches_caller []
    (print (format1 two_spaces) (BoundedStream 5)
           [VInteger TInt 42; VCString (txt "abc")] [])
    (Thrown Full (txt "42abc", [Full])).
Proof.
  pose proof errors_are_the_sink_s_own
    as (Hfrom & Hquiet & Hstop & Hputc & Hwatch).
  split; [| split; [| split; [| split]]].
  - split; [vm_compute; reflexivity |].
    apply (Hfrom _ _ two_spaces (BoundedStream 5)
                 [VInteger TInt 42; VCString (txt "abcd")] []).
    left. vm_compute. reflexivity.
  - split; [apply never_throws_buffer |].
    apply (Hquiet _ _ two_spaces BufferStream), never_throws_buffer.
  - split; [vm_compute; reflexivity |].
    split; [vm_compute; reflexivity |].
    apply (Hstop _ _ _ (format1 two_spaces) (BoundedStream 5)
                 [VInteger TInt 42] (VCString (txt "abcd"))
                 [VCString (txt "e")] [] (txt "42") Full (txt "42"));
      vm_compute; reflexivity.
  - split; [vm_compute; reflexivity |].
    split; [vm_compute; reflexivity |].
    apply (Hputc _ _ _ (format1 two_spaces) (BoundedStream 5)
                 [VInteger TInt 42; VCString (txt "abc")]
                 [] (txt "42abc") Full (txt "42abc"));
      vm_compute; reflexivity.
  - exact (proj2 (proj2 (Hwatch _ _ two_spaces (BoundedStream 5)
                                (VIndent 0)
                                [VInteger TInt 42; VCString (txt "abc")] []))).
Defined.

Lemma integer_overloads_write_decimal_witness :
  (exists t, In t overloads /\ integer_overload t = true /\
             width t = 64 /\ is_signed t = false) /\
  in_range TInt (-42) = true /\
  resolve TInt = Some TInt /\
  exists ds : text,
    rendering two_spaces (VInteger TInt (-42))
    = (if -42 <? 0 then ["-"%char] else []) ++ ds /\
    ds <> [] /\
    forallb is_digit ds = true /\
    parse_digits ds 0 = Some (Z.abs (-42)) /\
    (hd "0"%char ds = "0"%char -> ds = ["0"%char]).
Proof.
  pose proof integer_overloads_write_decimal as (Hevery & Hdecimal).
  split; [| split].
  - apply (Hevery false 64). cbn [In]. auto.
  - reflexivity.
  - apply (Hdecimal two_spaces TInt (-42)). reflexivity.
Defined.

Lemma plain_char_is_written_as_a_number_witness :
  -128 <= 65 <= 255 /\
  resolve TChar = Some TInt /\
  (forall (E : Type) (buf : text),
      format (format1 two_spaces) (@BufferStream E) [VInteger TInt 65] buf
      = Returned (buf ++ txt "65")) /\
  decimal 65 <> [char_of_int 65].
Proof.
  split; [lia |].
  destruct (plain_char_is_written_as_a_number two_spaces 65 ltac:(lia))
    as (_ & _ & Hresolve & _ & Hformat & Hne).
  split; [exact Hresolve |]. split; [exact Hformat | exact Hne].
Defined.

(** * Further properties of the header *)

(** ** Splitting and joining calls of [format] and [print] *)

(** X1: one call of [format] on the arguments [xs..., ys...] does to any
    stream what [format] on [xs...] followed by [format] on [ys...] does,
    throws included; likewise [print] on [xs..., ys...] is [format] on
    [xs...] followed by [print] on [ys...]. *)
Theorem format_of_joined_arguments :
  forall (St E Arg : Type)
         (f1 : FormatStream St E -> Arg -> St -> outcome St E)
         (s : FormatStream St E) (xs ys : list Arg) (st : St),
    format f1 s (xs ++ ys) st = (format f1 s xs ;; format f1 s ys) st /\
    print f1 s (xs ++ ys) st = (format f1 s xs ;; print f1 s ys) st.
Proof.
  intros. split; [apply format_app |].
  unfold print. rewrite <- and_then_assoc.
  unfold and_then at 1 3. rewrite format_app. reflexivity.
Qed.

(** X2: when [format] throws, the arguments split into a part that was
    converted completely, the one argument whose conversion threw this very
    exception in the state the first part left, and a rest. *)
Theorem format_throws_at_the_first_failure :
  forall (St E Arg : Type)
         (f1 : FormatStream St E -> Arg -> St -> outcome St E)
         (s : FormatStream St E) (args : list Arg)
         (st : St) (e : E) (st' : St),
    format f1 s args st = Thrown e st' ->
    exists (xs : list Arg) (a : Arg) (ys : list Arg) (st1 : St),
      args = xs ++ a :: ys /\
      format f1 s xs st = Returned st1 /\
      f1 s a st1 = Thrown e st'.
Proof.
  intros St E Arg f1 s args. induction args as [| a rest IH]; intros st e st' H.
  - discriminate H.
  - rewrite format_cons in H.
    apply and_then_thrown_inv in H as [H | (st1 & Ha & H)].
    + exists [], a, rest, st. repeat split. exact H.
    + destruct (IH st1 e st' H) as (xs & b & ys & st2 & -> & Hxs & Hb).
      exists (a :: xs), b, ys, st2. repeat split; [| exact Hb].
      rewrite format_cons. rewrite (and_then_returned _ _ _ _ Ha). exact Hxs.
Qed.

Lemma format_throws_at_the_first_failure_witness :
  format format1_cstring (BoundedStream 5) [txt "ab"; txt "cd"; txt "ef"; txt "g"] []
  = Thrown Full (txt "abcd") /\
  exists (xs : list text) (a : text) (ys : list text) (st1 : text),
    [txt "ab"; txt "cd"; txt "ef"; txt "g"] = xs ++ a :: ys /\
    format format1_cstring (BoundedStream 5) xs [] = Returned st1 /\
    format1_cstring (BoundedStream 5) a st1 = Thrown Full (txt "abcd").
Proof.
  split; [vm_compute; reflexivity |].
  apply (format_throws_at_the_first_failure
           _ _ _ format1_cstring (BoundedStream 5)
           [txt "ab"; txt "cd"; txt "ef"; txt "g"] [] Full (txt "abcd")).
  vm_compute. reflexivity.
Defined.

(** X8: when [format] returns, no argument was passed over: whichever
    argument one looks at, the ones before it were converted and returned,
    its own conversion ran in the state they left and returned, and the
    ones after it took the stream from there to the final state. *)
Theorem format_returns_after_every_conversion :
  forall (St E Arg : Type)
         (f1 : FormatStream St E -> Arg -> St -> outcome St E)
         (s : FormatStream St E) (xs : list Arg) (a : Arg) (ys : list Arg)
         (st st' : St),
    format f1 s (xs ++ a :: ys) st = Returned st' ->
    exists st1 st2 : St,
      format f1 s xs st = Returned st1 /\
      f1 s a st1 = Returned st2 /\
      format f1 s ys st2 = Returned st'.
Proof.
  intros St E Arg f1 s xs a ys st st' H.
  rewrite format_app in H. unfold and_then in H.
  destruct (format f1 s xs st) as [st1 | e st1] eqn:Hxs; [| discriminate H].
  rewrite format_cons in H. unfold and_then in H.
  destruct (f1 s a st1) as [st2 | e st2] eqn:Ha; [| discriminate H].
  exists st1, st2. split; [reflexivity |]. split; [exact Ha | exact H].
Qed.

Lemma format_returns_after_every_conversion_witness :
  format format1_cstring (BoundedStream 5)
         ([txt "ab"] ++ txt "c" :: [txt "de"]) []
  = Returned (txt "abcde") /\
  exists st1 st2 : text,
    format format1_cstring (BoundedStream 5) [txt "ab"] [] = Returned st1 /\
    format1_cstring (BoundedStream 5) (txt "c") st1 = Returned st2 /\
    format format1_cstring (BoundedStream 5) [txt "de"] st2
    = Returned (txt "abcde").
Proof.
  split; [vm_compute; reflexivity |].
  apply (format_returns_after_every_conversion
           _ _ _ format1_cstring (BoundedStream 5)
           [txt "ab"] (txt "c") [txt "de"] [] (txt "abcde")).
  vm_compute. reflexivity.
Defined.

(** X3: [format] and [print] do nothing to a stream but what the conversions
    (and, for [print], the final [putc]) do: a property of the stream state
    that every conversion keeps, whether it returns or throws, holds after
    [format], and after [print] when [putc] of the newline keeps it too. *)
Theorem format_keeps_what_conversions_keep :
  forall (St E Arg : Type)
         (f1 : FormatStream St E -> Arg -> St -> outcome St E)
         (s : FormatStream St E) (inv : St -> Prop),
    (forall (a : Arg) (st : St), inv st -> inv (final (f1 s a st))) ->
    forall (args : list Arg) (st : St),
      inv st ->
      inv (final (format f1 s args st)) /\
      ((forall st0, inv st0 -> inv (final (putc s 10 st0))) ->
       inv (final (print f1 s args st))).
Proof.
  intros St E Arg f1 s inv Hf1 args.
  assert (Hformat : forall st, inv st -> inv (final (format f1 s args st))).
  { induction args as [| a rest IH]; intros st Hst; [exact Hst |].
    rewrite format_cons. unfold and_then.
    specialize (Hf1 a st Hst).
    destruct (f1 s a st) as [st1 | e st1]; [apply IH |]; exact Hf1. }
  intros st Hst. split; [apply Hformat, Hst |].
  intros Hputc. unfold print, and_then.
  specialize (Hformat st Hst).
  destruct (format f1 s args st) as [st1 | e st1];
    [apply Hputc |]; exact Hformat.
Qed.

Lemma bounded_append_within capacity t buf :
  (length buf <= capacity)%nat ->
  (length (final (bounded_append capacity t buf)) <= capacity)%nat.
Proof.
  intros H. unfold bounded_append.
  destruct (Nat.leb_spec (length (buf ++ t)) capacity); cbn [final]; lia.
Qed.

Lemma format_keeps_what_conversions_keep_witness :
  (length (@nil ascii) <= 5)%nat /\
  (length (final (print format1_cstring (BoundedStream 5)
                        [txt "ab"; txt "cd"; txt "ef"] [])) <= 5)%nat.
Proof.
  split; [cbn; lia |].
  apply (format_keeps_what_conversions_keep
           _ _ _ format1_cstring (BoundedStream 5)
           (fun buf => (length buf <= 5)%nat)).
  - intros a st. apply bounded_append_within.
  - cbn. lia.
  - intros st0. apply bounded_append_within.
Defined.

(** ** The declared overload set *)

Lemma integral_types_without_an_overload_plain (t : ctype) :
  is_integral t = true -> integer_overload t = false ->
  (promotes t TInt = true -> resolve t = Some TInt) /\
  (promotes t TInt = false -> resolve t = None).
Proof.
  intros Hi Ho.
  destruct t; try discriminate Hi; try discriminate Ho;
    split; intros Hp; first [reflexivity | discriminate Hp].
Qed.



(** X6: what the converting constructors of the header let through.
    Every arithmetic type converts to [Indent] through [Indent(int)], yet
    the [Indent] overload is never the one chosen for it: a number is not
    written as indentation.  A pointer to void, const or not, and a
    pointer to another object type, as a pointer to [int], are taken by
    the [FormatAddress] overload through its constructor and written as
    addresses.  A pointer to char, const or not, converts to
    [FormatAddress] and to [std::string] too, yet is taken by the C string
    overload. *)
Theorem converting_constructors_capture :
  (forall t : ctype,
      is_arithmetic t = true ->
      viable t TIndent = true /\ resolve t <> Some TIndent) /\
  (forall t : ctype,
      In t [TVoidPtr; TMutVoidPtr; TObjectPtr] ->
      implicit_conversion t TFormatAddress = Some UserDefined /\
      resolve t = Some TFormatAddress) /\
  (forall t : ctype,
      In t [TCString; TCharPtr] ->
      viable t TFormatAddress = true /\ viable t TString = true /\
      resolve t = Some TCString).
Proof.
  split; [| split].
  - intros t Ha.
    destruct t; try discriminate Ha; split; first [reflexivity | discriminate].
  - intros t Ht. cbn [In] in Ht.
    repeat (destruct Ht as [<- | Ht]; [split; reflexivity |]). contradiction.
  - intros t Ht. cbn [In] in Ht.
    repeat (destruct Ht as [<- | Ht]; [repeat split |]). contradiction.
Qed.

Lemma converting_constructors_capture_witness :
  (is_arithmetic TDouble = true /\
   viable TDouble TIndent = true /\ resolve TDouble <> Some TIndent) /\
  (In TObjectPtr [TVoidPtr; TMutVoidPtr; TObjectPtr] /\
   resolve TObjectPtr = Some TFormatAddress) /\
  (In TCharPtr [TCString; TCharPtr] /\ resolve TCharPtr = Some TCString).
Proof.
  pose proof converting_constructors_capture as (Hindent & Haddress & Hchars).
  split; [| split].
  - split; [reflexivity |]. apply (Hindent TDouble). reflexivity.
  - assert (Hin : In TObjectPtr [TVoidPtr; TMutVoidPtr; TObjectPtr])
      by (cbn; tauto).
    split; [exact Hin |]. apply (Haddress TObjectPtr Hin).
  - assert (Hin : In TCharPtr [TCString; TCharPtr]) by (cbn; tauto).
    split; [exact Hin |]. apply (Hchars TCharPtr Hin).
Defined.

(** ** Integer arguments *)

Lemma width_split t :
  integer_overload t = true ->
  2 ^ width t = 2 * 2 ^ (width t - 1) /\ 0 < 2 ^ (width t - 1).
Proof.
  intros Ho.
  assert (Hw : 1 <= width t) by (destruct t; try discriminate Ho; cbn; lia).
  split; [| apply Z.pow_pos_nonneg; lia].
  rewrite <- Z.pow_succ_r by lia. f_equal. lia.
Qed.

Lemma wrap_in_range t v : in_range t v = true -> wrap t v = v.
Proof.
  intros H. pose proof (in_range_overload t v H) as Ho.
  destruct (width_split t Ho) as [Hm Hh].
  unfold in_range, int_min, int_max in H. unfold wrap, int_max.
  apply andb_prop in H as [H Hhi]. apply andb_prop in H as [_ Hlo].
  apply Z.leb_le in Hlo, Hhi.
  rewrite Hm in *. set (h := 2 ^ (width t - 1)) in *.
  destruct (is_signed t); cbn [andb].
  - destruct (Z_lt_dec v 0).
    + replace (v mod (2 * h)) with (v + 2 * h)
        by (apply Z.mod_unique with (q := -1); lia).
      destruct (Z.ltb_spec (h - 1) (v + 2 * h)); lia.
    + rewrite Z.mod_small by lia.
      destruct (Z.ltb_spec (h - 1) v); lia.
  - apply Z.mod_small. lia.
Qed.

Lemma wrap_lands_in_range t v :
  integer_overload t = true -> in_range t (wrap t v) = true.
Proof.
  intros Ho. destruct (width_split t Ho) as [Hm Hh].
  unfold in_range, int_min, int_max, wrap, int_max. rewrite Ho, Hm.
  set (h := 2 ^ (width t - 1)) in *.
  pose proof (Z.mod_pos_bound v (2 * h) ltac:(lia)) as Hu.
  cbn [andb]. apply andb_true_intro.
  destruct (is_signed t); cbn [andb].
  - destruct (Z.ltb_spec (h - 1) (v mod (2 * h)));
      split; apply Z.leb_le; lia.
  - split; apply Z.leb_le; lia.
Qed.

(** X7: an integer argument reaches [format1] as a value of the parameter
    type of the chosen overload: in range whatever was passed, and unchanged
    when it is a value of an overload's own type, or a [bool] or plain
    [char] promoted to [int]. *)
Theorem integer_arguments_keep_their_value :
  forall (t : ctype) (v : Z),
    (forall p w, integer_argument t v = Some (VInteger p w) ->
                 resolve t = Some p /\ in_range p w = true) /\
    (in_range t v = true -> integer_argument t v = Some (VInteger t v)) /\
    (is_integral t = true -> integer_overload t = false ->
     promotes t TInt = true -> in_range TInt v = true ->
     integer_argument t v = Some (VInteger TInt v)).
Proof.
  intros t v. split; [| split].
  - unfold integer_argument. intros p w H.
    destruct (resolve t) as [q |]; [| discriminate H].
    destruct (integer_overload q) eqn:Hq; [| discriminate H].
    injection H as <- <-. split; [reflexivity |].
    apply wrap_lands_in_range, Hq.
  - intros Hr. unfold integer_argument.
    rewrite (resolve_integer_overload t (in_range_overload t v Hr)).
    rewrite (in_range_overload t v Hr), (wrap_in_range t v Hr). reflexivity.
  - intros Hi Ho Hp Hr. unfold integer_argument.
    rewrite (proj1 (integral_types_without_an_overload_plain t Hi Ho) Hp).
    cbn [integer_overload]. rewrite (wrap_in_range TInt v Hr). reflexivity.
Qed.

Lemma integer_arguments_keep_their_value_witness :
  (in_range TUShort 65535 = true /\
   integer_argument TUShort 65535 = Some (VInteger TUShort 65535)) /\
  (in_range TInt 1 = true /\
   integer_argument TBool 1 = Some (VInteger TInt 1)) /\
  (integer_argument TChar 65 = Some (VInteger TInt 65) /\
   resolve TChar = Some TInt /\ in_range TInt 65 = true).
Proof.
  split; [| split].
  - split; [reflexivity |].
    apply (proj1 (proj2 (integer_arguments_keep_their_value TUShort 65535))).
    reflexivity.
  - split; [reflexivity |].
    apply (proj2 (proj2 (integer_arguments_keep_their_value TBool 1)));
      reflexivity.
  - split; [reflexivity |].
    apply (proj1 (integer_arguments_keep_their_value TChar 65) TInt 65).
    reflexivity.
Defined.

End Hail.
